(** * Gradient descent and Newton's method of [autodiffb.py]

    The two optimisers [gd] and [newton] of the notebook are embedded as
    Rocq functions.  Both are written in Python against whatever numeric
    type the caller passes: they only use the operators [-], [*] and [/],
    the differentiation oracle [jax.grad] and [range].  The embedding keeps
    that shape:

    - the numeric type is a parameter with the three operators ([Number]);
    - the oracle is a parameter [grad];
    - a run is a value together with the log of what it did (one entry per
      oracle call, one per execution of a loop body), so that the number and
      the order of oracle calls and of iterations can be stated.

    Two interpretations of the numeric type are given: the real numbers of
    the data model (exact arithmetic), and IEEE-754 binary floating point
    (the arithmetic jax computes with), where a division by zero has a
    result.

    The functions the notebook applies the optimisers to are embedded on
    the reals: the two [foo] and the regression [loss] with its table. *)

From Stdlib Require Import ZArith List Lia Reals Lra.
From Stdlib Require Import SpecFloat ClassicalEpsilon.
Import ListNotations.

Set Implicit Arguments.

(** ** Numeric interface *)

(** The operators the two functions apply to their numeric arguments:
    [x - y], [x * y] and [x / y]. *)
Class Number (T : Type) : Type := {
  sub : T -> T -> T;
  mul : T -> T -> T;
  truediv : T -> T -> T
}.

Declare Scope num_scope.
Delimit Scope num_scope with num.
Infix "-" := sub : num_scope.
Infix "*" := mul : num_scope.
Infix "/" := truediv : num_scope.

(** ** Logged runs *)

(** What a run does that a caller could observe by instrumenting it:
    [Derivative g] is a call [jax.grad(g)], [Iteration i] is one execution
    of a loop body, with the value of the loop variable. *)
Inductive event (T : Type) : Type :=
| Derivative (g : T -> T)
| Iteration (i : Z).

Arguments Derivative {T} g.
Arguments Iteration {T} i.

Definition is_derivative {T} (e : event T) : bool :=
  match e with Derivative _ => true | Iteration _ => false end.

Definition is_iteration {T} (e : event T) : bool :=
  match e with Derivative _ => false | Iteration _ => true end.

(** A computation returns its value and the log of its events, oldest
    first. *)
Definition Logged (T A : Type) : Type := (A * list (event T))%type.

Definition ret {T A} (a : A) : Logged T A := (a, []).

Definition bind {T A B} (m : Logged T A) (k : A -> Logged T B) : Logged T B :=
  let (a, l1) := m in
  let (b, l2) := k a in
  (b, l1 ++ l2).

Definition emit {T} (e : event T) : Logged T unit := (tt, [e]).

Definition value {T A} (m : Logged T A) : A := fst m.
Definition trace {T A} (m : Logged T A) : list (event T) := snd m.

Notation "x <- c ;; k" := (bind c (fun x => k))
  (at level 61, c at next level, right associativity).
Notation "c ;; k" := (bind c (fun _ => k))
  (at level 61, right associativity).

(** Number of oracle calls and of loop-body executions in a log. *)
Definition oracle_calls {T} (l : list (event T)) : nat :=
  length (filter is_derivative l).

Definition updates {T} (l : list (event T)) : nat :=
  length (filter is_iteration l).

(** ** Loops *)

(** Python's [range(n)] for an integer [n]: [0, 1, ..., n-1], empty when
    [n <= 0]. *)
Definition range (n : Z) : list Z := map Z.of_nat (seq 0 (Z.to_nat n)).

(** [for a in l: s = body(a, s)], the loop state [s] being the local
    variables the body assigns. *)
Fixpoint for_in {T A S} (l : list A) (body : A -> S -> Logged T S) (s : S)
  : Logged T S :=
  match l with
  | [] => ret s
  | a :: l' => s' <- body a s ;; for_in l' body s'
  end.

(** ** The optimisers *)

Section Optimisers.

Context {T : Type} {N : Number T}.

(** [jax.grad]: from a function, its derivative function. *)
Variable grad : (T -> T) -> (T -> T).

Local Open Scope num_scope.

Definition derivative (g : T -> T) : Logged T (T -> T) :=
  emit (Derivative g) ;; ret (grad g).

(** Body of the loop of [gd] on its locals [(x, step)]:
    [x -= df(x)*step; step *= decay].  The numbers are immutable values,
    so the augmented assignments rebind the locals. *)
Definition gd_body (df : T -> T) (decay : T) (i : Z) (st : T * T)
  : Logged T (T * T) :=
  let '(x, step) := st in
  emit (Iteration i) ;;
  let x := x - df x * step in
  let step := step * decay in
  ret (x, step).

(** [def gd(f, x0, step, decay, niter)]. *)
Definition gd (f : T -> T) (x0 step decay : T) (niter : Z) : Logged T T :=
  df <- derivative f ;;
  st <- for_in (range niter) (gd_body df decay) (x0, step) ;;
  ret (fst st).

(** Body of the loop of [newton] on its local [x]:
    [x = x - df(x)/ddf(x)]. *)
Definition newton_body (df ddf : T -> T) (i : Z) (x : T) : Logged T T :=
  emit (Iteration i) ;;
  ret (x - df x / ddf x).

(** [def newton(f, x0, niter)]. *)
Definition newton (f : T -> T) (x0 : T) (niter : Z) : Logged T T :=
  df <- derivative f ;;
  ddf <- derivative df ;;
  x <- for_in (range niter) (newton_body df ddf) x0 ;;
  ret x.

(** The locals [(x, step)] of [gd] once the first [i] iterations of a run
    of [niter] iterations are done. *)
Definition gd_locals (f : T -> T) (x0 step decay : T) (niter : Z) (i : nat)
  : T * T :=
  value (for_in (firstn i (range niter)) (gd_body (grad f) decay) (x0, step)).

(** ** The recurrences of the specification *)

(** [(x_k, step_k)] with [x_0 = x0], [step_0 = step0],
    [x_{k+1} = x_k - df(x_k) * step_k] and [step_{k+1} = step_k * decay]. *)
Fixpoint gd_rec (df : T -> T) (x0 step0 decay : T) (k : nat) : T * T :=
  match k with
  | O => (x0, step0)
  | S k' =>
      let xs := gd_rec df x0 step0 decay k' in
      (fst xs - df (fst xs) * snd xs, snd xs * decay)
  end.

(** [x_k] with [x_0 = x0] and [x_{k+1} = x_k - df(x_k) / ddf(x_k)]. *)
Fixpoint newton_rec (df ddf : T -> T) (x0 : T) (k : nat) : T :=
  match k with
  | O => x0
  | S k' =>
      let x := newton_rec df ddf x0 k' in
      x - df x / ddf x
  end.

End Optimisers.

(** ** Exact arithmetic: the real numbers of the data model *)

(** The divisor of [Rdiv] is meant to be non-zero: what a division by zero
    gives is stated on the floating-point interpretation below, and every
    statement on this one keeps the divisors it meets away from zero. *)
#[export] Instance real_number : Number R :=
  {| sub := Rminus; mul := Rmult; truediv := Rdiv |}.

(** An oracle is exact on [f] when the function it returns is the
    derivative of [f] at every point. *)
Definition exact_on (grad : (R -> R) -> (R -> R)) (f : R -> R) : Prop :=
  forall x : R, derivable_pt_lim f x (grad f x).

(** The ideal oracle on the reals: the derivative wherever there is one. *)
Definition Rgrad (f : R -> R) (x : R) : R :=
  match excluded_middle_informative (exists l, derivable_pt_lim f x l) with
  | left H => proj1_sig (constructive_indefinite_description _ H)
  | right _ => 0%R
  end.

(** The objectives of the stated properties: [x**2] and [(x - c)**2]. *)
Definition square (x : R) : R := (x ^ 2)%R.
Definition parabola (c : R) (x : R) : R := ((x - c) ^ 2)%R.

(** ** IEEE-754 binary floating point *)

(** [prec] bits of mantissa and exponent bound [emax]; rounding to nearest,
    ties to even. *)
Definition ieee (prec emax : Z) : Number spec_float :=
  {| sub := SFsub prec emax; mul := SFmul prec emax; truediv := SFdiv prec emax |}.

Definition binary32 : Number spec_float := ieee 24 128.
Definition binary64 : Number spec_float := ieee 53 1024.

(** Neither an infinity nor a NaN. *)
Definition is_finite (x : spec_float) : bool :=
  match x with
  | S754_zero _ | S754_finite _ _ _ => true
  | S754_infinity _ | S754_nan => false
  end.

(** [+0.0] or [-0.0]. *)
Definition is_zero (x : spec_float) : bool :=
  match x with
  | S754_zero _ => true
  | _ => false
  end.

(** A differentiation oracle that computes: the central difference
    [(g(x + 1) - g(x - 1)) / 2]. *)
Definition central_difference (prec emax : Z) (g : spec_float -> spec_float)
  (x : spec_float) : spec_float :=
  let one := SFone prec emax in
  let two := SFadd prec emax one one in
  SFdiv prec emax
    (SFsub prec emax (g (SFadd prec emax x one)) (g (SFsub prec emax x one)))
    two.

(** [x**3] in floating point, [x * x * x]. *)
Definition cube (prec emax : Z) (x : spec_float) : spec_float :=
  SFmul prec emax (SFmul prec emax x x) x.

(** ** The objectives of the notebook *)

(** The objective the two optimisers are run on:
    [a = np.exp(-(x-1)**2); b = np.sin(x); return a*b]. *)
Definition foo (x : R) : R :=
  let a := exp (- (x - 1) ^ 2) in
  let b := sin x in
  (a * b)%R.

(** The function differentiated first, which the second [foo] then
    replaces: [a = np.log(x); b = np.exp(x); return (a + b)/(a*b)]. *)
Module Evaluating.
Definition foo (x : R) : R :=
  let a := ln x in
  let b := exp x in
  ((a + b) / (a * b))%R.
End Evaluating.

(** A general quadratic objective [a*x**2 + b*x + c]. *)
Definition quadratic (a b c : R) (x : R) : R := (a * x ^ 2 + b * x + c)%R.

(** ** Linear regression *)

(** The table [municipalities]: one row [(population, cases)] per
    municipality. *)
Definition municipalities : list (Z * Z) :=
  [(441976, 2359); (309912, 1311); (35821, 14); (1064523, 31664);
   (50022, 99); (94194, 219); (1118363, 104246); (766247, 2009);
   (59246, 147); (96671, 271); (293166, 5864); (24842, 63); (275797, 3920);
   (255611, 670); (41512, 133); (75471, 235); (34456, 13); (98014, 312);
   (279091, 1299); (211264, 197); (79595, 410); (168959, 60); (169312, 791);
   (216749, 293); (106626, 172); (150191, 334); (49265, 189); (884039, 1675);
   (140857, 179); (73957, 226); (244515, 256); (73131, 36); (12603, 7);
   (48506, 448); (50863, 551); (136575, 1167); (136690, 194); (139017, 24);
   (246157, 4046); (41822, 117); (31105, 65); (402087, 1614); (740243, 501);
   (207791, 151); (18121, 218); (171057, 580); (359594, 6872); (152634, 514);
   (30140, 69); (76103, 2421); (135252, 510); (367552, 4688); (58093, 163);
   (134205, 337); (12236, 6); (75847, 230); (148942, 1450); (98733, 960);
   (106797, 272); (813137, 4436); (235134, 3393); (14560, 23);
   (315429, 1446); (289005, 1413); (576211, 6947); (340761, 697);
   (287344, 827); (146912, 356); (38384, 89); (112529, 911); (35154, 41);
   (52997, 167); (613572, 2031); (401093, 1082); (166448, 87); (44096, 104);
   (39067, 79); (100361, 294); (394099, 872); (52341, 142); (298666, 378);
   (90943, 524); (8125, 14); (34134, 292); (29867, 13); (43846, 562);
   (1254812, 17713); (33761, 92); (169031, 612); (990827, 15279);
   (229676, 1517); (38409, 777); (199770, 666); (142900, 851); (155468, 239);
   (438265, 1960); (37765, 57); (66980, 63); (70981, 162); (504659, 1570)]%Z.

(** The columns [municipalities[:, 0]] and [municipalities[:, 1]]. *)
Definition column0 (table : list (Z * Z)) : list R :=
  map (fun row => IZR (fst row)) table.
Definition column1 (table : list (Z * Z)) : list R :=
  map (fun row => IZR (snd row)) table.

Definition populations : list R := column0 municipalities.
Definition cases : list R := column1 municipalities.

(** The array operations [loss] uses.  The binary ones are elementwise on
    arrays of one shape; [loss] applies them to columns of one table and to
    what it computes from them. *)
Definition np_log (v : list R) : list R := map ln v.
Definition np_scale (k : R) (v : list R) : list R := map (Rmult k) v.
Definition np_shift (v : list R) (k : R) : list R :=
  map (fun e => (e - k)%R) v.
Definition np_sub (u v : list R) : list R :=
  map (fun p => (fst p - snd p)%R) (combine u v).
Definition np_mul (u v : list R) : list R :=
  map (fun p => (fst p * snd p)%R) (combine u v).
Definition np_sum (v : list R) : R := fold_right Rplus 0%R v.
Definition np_mean (v : list R) : R := (np_sum v / INR (length v))%R.

(** [def loss(a)], on the global arrays [populations] and [cases] given as
    parameters:
    [err = np.log(cases) - a[0]*np.log(populations) - a[1];
     return np.mean(err*err)]. *)
Definition loss (populations cases : list R) (a : R * R) : R :=
  let err :=
    np_shift (np_sub (np_log cases) (np_scale (fst a) (np_log populations)))
             (snd a) in
  np_mean (np_mul err err).

(** ** Floating-point inputs of the counterexamples *)

(** The real number a float stands for (0 for the infinities and NaN). *)
Definition to_real (x : spec_float) : R :=
  match x with
  | S754_finite s m e => (IZR (cond_Zopp s (Zpos m)) * powerRZ 2 e)%R
  | _ => 0%R
  end.

(** The binary32 numbers [0.1], [2.0], [10.0], [1.0] and [2**-100]. *)
Definition tenth32 : spec_float := S754_finite false 13421773 (-27).
Definition two32 : spec_float := S754_finite false 8388608 (-22).
Definition ten32 : spec_float := S754_finite false 10485760 (-20).
Definition one32 : spec_float := S754_finite false 8388608 (-23).
Definition tiny32 : spec_float := S754_finite false 8388608 (-123).

(** [(x - c)**2] in binary32. *)
Definition parabola32 (c x : spec_float) : spec_float :=
  let d := SFsub 24 128 x c in
  SFmul 24 128 d d.

(** An oracle that returns the exact derivative formulas of [(x - c)**2]
    for [c > 0], in binary32: [2*(x - c)] for the objective and the constant
    [2] for that derivative.  It tells the two apart at 0, where the
    objective is not negative and its derivative is. *)
Definition parabola_oracle32 (c : spec_float)
  (g : spec_float -> spec_float) : spec_float -> spec_float :=
  if SFltb (g (S754_zero false)) (S754_zero false)
  then fun _ => two32
  else fun x => SFmul 24 128 two32 (SFsub 24 128 x c).

(** A constant objective and its derivative, the constant 0. *)
Definition constant32 (x : spec_float) : spec_float := one32.
Definition zero_oracle32 (g : spec_float -> spec_float)
  : spec_float -> spec_float :=
  fun _ => S754_zero false.

(** * Properties *)

(** ** Lists, logs and loops *)

Lemma length_range (n : Z) : length (range n) = Z.to_nat n.
Proof. unfold range. now rewrite length_map, length_seq. Qed.

Lemma range_nonpos (n : Z) : (n <= 0)%Z -> range n = [].
Proof.
  intros Hn. unfold range.
  replace (Z.to_nat n) with 0%nat by lia. reflexivity.
Qed.

Lemma updates_iterations {T} (l : list Z) :
  updates (map (@Iteration T) l) = length l.
Proof.
  unfold updates. induction l as [|i l IH]; simpl; [reflexivity|].
  now rewrite IH.
Qed.

Lemma oracle_calls_iterations {T} (l : list Z) :
  oracle_calls (map (@Iteration T) l) = 0%nat.
Proof.
  unfold oracle_calls. induction l as [|i l IH]; simpl; auto.
Qed.

Section Runs.

Context {T : Type} {N : Number T}.
Variable grad : (T -> T) -> (T -> T).

Local Open Scope num_scope.

(** Doing the first step first, as the loop does, or last, as the
    recurrence is written, is the same. *)
Lemma gd_rec_shift (df : T -> T) (x0 s0 decay : T) (k : nat) :
  gd_rec df x0 s0 decay (S k)
  = gd_rec df (x0 - df x0 * s0) (s0 * decay) decay k.
Proof.
  induction k as [|k IH]; [reflexivity|].
  change (gd_rec df x0 s0 decay (S (S k)))
    with (let xs := gd_rec df x0 s0 decay (S k) in
          (fst xs - df (fst xs) * snd xs, snd xs * decay)).
  rewrite IH. reflexivity.
Qed.

Lemma newton_rec_shift (df ddf : T -> T) (x0 : T) (k : nat) :
  newton_rec df ddf x0 (S k)
  = newton_rec df ddf (x0 - df x0 / ddf x0) k.
Proof.
  induction k as [|k IH]; [reflexivity|].
  change (newton_rec df ddf x0 (S (S k)))
    with (let x := newton_rec df ddf x0 (S k) in x - df x / ddf x).
  rewrite IH. reflexivity.
Qed.

(** The loop of [gd] over any list of indices: its locals follow the
    recurrence and its log has one entry per index. *)
Lemma for_in_gd_body (df : T -> T) (decay : T) (l : list Z) (st : T * T) :
  for_in l (gd_body df decay) st
  = (gd_rec df (fst st) (snd st) decay (length l), map Iteration l).
Proof.
  revert st. induction l as [|i l IH]; intros [x s].
  - reflexivity.
  - cbn [for_in length map]. rewrite gd_rec_shift.
    unfold gd_body at 1. cbn [bind emit ret].
    rewrite IH. reflexivity.
Qed.

Lemma for_in_newton_body (df ddf : T -> T) (l : list Z) (x : T) :
  for_in l (newton_body df ddf) x
  = (newton_rec df ddf x (length l), map Iteration l).
Proof.
  revert x. induction l as [|i l IH]; intros x.
  - reflexivity.
  - cbn [for_in length map]. rewrite newton_rec_shift.
    unfold newton_body at 1. cbn [bind emit ret].
    rewrite IH. reflexivity.
Qed.

(** A whole run of [gd]: value and log. *)
Lemma gd_run (f : T -> T) (x0 step decay : T) (niter : Z) :
  gd grad f x0 step decay niter
  = (fst (gd_rec (grad f) x0 step decay (Z.to_nat niter)),
     Derivative f :: map Iteration (range niter)).
Proof.
  unfold gd, derivative. cbn [bind emit ret].
  rewrite for_in_gd_body, length_range. cbn [bind ret fst snd app].
  now rewrite app_nil_r.
Qed.

(** A whole run of [newton]: value and log. *)
Lemma newton_run (f : T -> T) (x0 : T) (niter : Z) :
  newton grad f x0 niter
  = (newton_rec (grad f) (grad (grad f)) x0 (Z.to_nat niter),
     Derivative f :: Derivative (grad f) :: map Iteration (range niter)).
Proof.
  unfold newton, derivative. cbn [bind emit ret].
  rewrite for_in_newton_body, length_range. cbn [bind ret fst snd app].
  now rewrite app_nil_r.
Qed.

(** The locals of [gd] after [i] iterations of a run of [niter]. *)
Lemma gd_locals_rec (f : T -> T) (x0 step decay : T) (niter : Z) (i : nat) :
  (i <= Z.to_nat niter)%nat ->
  gd_locals grad f x0 step decay niter i = gd_rec (grad f) x0 step decay i.
Proof.
  intros Hi. unfold gd_locals. rewrite for_in_gd_body. cbn [value fst snd].
  rewrite length_firstn, length_range.
  now rewrite Nat.min_l.
Qed.

(** After all [niter] iterations, the local [x] is what [gd] returns. *)
Lemma gd_locals_final (f : T -> T) (x0 step decay : T) (niter : Z) :
  fst (gd_locals grad f x0 step decay niter (Z.to_nat niter))
  = value (gd grad f x0 step decay niter).
Proof.
  rewrite gd_locals_rec by apply Nat.le_refl.
  now rewrite gd_run.
Qed.

End Runs.

(** ** Derivatives on the reals *)

Section RealFacts.

Local Open Scope R_scope.

Lemma derivable_pt_lim_pointwise (f g : R -> R) (x l : R) :
  (forall y, f y = g y) -> derivable_pt_lim f x l -> derivable_pt_lim g x l.
Proof.
  intros Hfg Hf eps Heps. destruct (Hf eps Heps) as [delta Hd].
  exists delta. intros h Hh Hlt. rewrite <- !Hfg. now apply Hd.
Qed.

Lemma derivable_pt_lim_parabola (c x : R) :
  derivable_pt_lim (parabola c) x (2 * (x - c)).
Proof.
  intros eps Heps. exists (mkposreal eps Heps). intros h Hh Hlt.
  unfold parabola.
  replace (((x + h - c) ^ 2 - (x - c) ^ 2) / h - 2 * (x - c))%R with h
    by (field; exact Hh).
  exact Hlt.
Qed.

Lemma derivable_pt_lim_square (x : R) : derivable_pt_lim square x (2 * x).
Proof.
  intros eps Heps. exists (mkposreal eps Heps). intros h Hh Hlt.
  unfold square.
  replace (((x + h) ^ 2 - x ^ 2) / h - 2 * x)%R with h by (field; exact Hh).
  exact Hlt.
Qed.

Lemma derivable_pt_lim_slope2 (c x : R) :
  derivable_pt_lim (fun y => 2 * (y - c))%R x 2.
Proof.
  intros eps Heps. exists (mkposreal eps Heps). intros h Hh Hlt.
  replace ((2 * (x + h - c) - 2 * (x - c)) / h - 2)%R with 0%R
    by (field; exact Hh).
  now rewrite Rabs_R0.
Qed.

(** What an exact oracle returns on the two objectives. *)
Lemma exact_square (grad : (R -> R) -> (R -> R)) :
  exact_on grad square -> forall x, grad square x = (2 * x)%R.
Proof.
  intros Hg x.
  exact (uniqueness_limite _ _ _ _ (Hg x) (derivable_pt_lim_square x)).
Qed.

Lemma exact_parabola (grad : (R -> R) -> (R -> R)) (c : R) :
  exact_on grad (parabola c) ->
  forall x, grad (parabola c) x = (2 * (x - c))%R.
Proof.
  intros Hg x.
  exact (uniqueness_limite _ _ _ _ (Hg x) (derivable_pt_lim_parabola c x)).
Qed.

Lemma exact_parabola_second (grad : (R -> R) -> (R -> R)) (c : R) :
  exact_on grad (parabola c) -> exact_on grad (grad (parabola c)) ->
  forall x, grad (grad (parabola c)) x = 2%R.
Proof.
  intros Hg Hgg x.
  apply (uniqueness_limite _ _ _ _ (Hgg x)).
  apply derivable_pt_lim_pointwise with (f := (fun y => 2 * (y - c))%R).
  - intros y. symmetry. now apply exact_parabola.
  - apply derivable_pt_lim_slope2.
Qed.

(** The ideal oracle returns the derivative wherever there is one. *)
Lemma Rgrad_derivative (f : R -> R) (x l : R) :
  derivable_pt_lim f x l -> Rgrad f x = l.
Proof.
  intros Hl. unfold Rgrad.
  destruct (excluded_middle_informative (exists l0, derivable_pt_lim f x l0))
    as [H|H].
  - destruct (constructive_indefinite_description _ H) as [l' Hl']. simpl.
    exact (uniqueness_limite _ _ _ _ Hl' Hl).
  - exfalso. apply H. now exists l.
Qed.

Lemma Rgrad_exact_square : exact_on Rgrad square.
Proof.
  intros x. rewrite (Rgrad_derivative (derivable_pt_lim_square x)).
  apply derivable_pt_lim_square.
Qed.

Lemma Rgrad_exact_parabola (c : R) : exact_on Rgrad (parabola c).
Proof.
  intros x. rewrite (Rgrad_derivative (derivable_pt_lim_parabola c x)).
  apply derivable_pt_lim_parabola.
Qed.

Lemma Rgrad_exact_parabola_second (c : R) :
  exact_on Rgrad (Rgrad (parabola c)).
Proof.
  assert (H2 : forall x, derivable_pt_lim (Rgrad (parabola c)) x 2).
  { intros x.
    apply derivable_pt_lim_pointwise with (f := (fun y => 2 * (y - c))%R).
    - intros y. symmetry. apply Rgrad_derivative, derivable_pt_lim_parabola.
    - apply derivable_pt_lim_slope2. }
  intros x. rewrite (Rgrad_derivative (H2 x)). apply H2.
Qed.

(** ** The recurrences on the reals *)

(** The step size of [gd] in closed form. *)
Lemma gd_rec_step (df : R -> R) (x0 step0 decay : R) (k : nat) :
  snd (gd_rec df x0 step0 decay k) = (step0 * decay ^ k)%R.
Proof.
  induction k as [|k IH]; simpl.
  - ring.
  - rewrite IH. ring.
Qed.



End RealFacts.

(** ** Non-finite values in floating point *)

Section NonFinite.

Variables prec emax : Z.

Lemma SFdiv_by_zero (a z : spec_float) :
  is_zero z = true -> is_finite (SFdiv prec emax a z) = false.
Proof. destruct z; try discriminate. intros _. now destruct a. Qed.

Lemma SFsub_nonfinite_l (a b : spec_float) :
  is_finite a = false -> is_finite (SFsub prec emax a b) = false.
Proof.
  destruct a as [s|s| |s m e]; try discriminate; intros _.
  - destruct b as [t|t| |t m e]; try reflexivity. now destruct s, t.
  - now destruct b.
Qed.

Lemma SFsub_nonfinite_r (a b : spec_float) :
  is_finite b = false -> is_finite (SFsub prec emax a b) = false.
Proof.
  destruct b as [t|t| |t m e]; try discriminate; intros _.
  - destruct a as [s|s| |s m e]; try reflexivity. now destruct s, t.
  - now destruct a.
Qed.

(** Once the iterate of [newton] is not finite, it never is again. *)
Lemma newton_rec_nonfinite (df ddf : spec_float -> spec_float)
  (x : spec_float) (k : nat) :
  is_finite x = false ->
  is_finite (newton_rec (N := ieee prec emax) df ddf x k) = false.
Proof.
  intros Hx. induction k as [|k IH]; [exact Hx|].
  simpl. now apply SFsub_nonfinite_l.
Qed.

End NonFinite.

(** * The stated properties *)

Section Generic.

Context {T : Type} {N : Number T}.
Variable grad : (T -> T) -> (T -> T).

(** C1.  [gd] returns [x_niter] of the recurrence [x_0 = x0],
    [step_0 = step0], [x_{k+1} = x_k - df(x_k) * step_k],
    [step_{k+1} = step_k * decay], where [df] is the one function the oracle
    returned for [f]; this for every numeric type, oracle, function, initial
    point, step size, decay factor and iteration count. *)
Theorem gd_computes_recurrence (f : T -> T) (x0 step0 decay : T) (niter : Z) :
  value (gd grad f x0 step0 decay niter)
  = fst (gd_rec (grad f) x0 step0 decay (Z.to_nat niter)).
Proof.
  unfold gd, derivative. cbn [bind emit ret].
  rewrite for_in_gd_body, length_range.
  reflexivity.
Qed.

(** C2.  [newton] returns [x_niter] of the recurrence [x_0 = x0],
    [x_{k+1} = x_k - df(x_k) / ddf(x_k)], where [df] is what the oracle
    returned for [f] and [ddf] what it returned for [df]. *)
Theorem newton_computes_recurrence (f : T -> T) (x0 : T) (niter : Z) :
  value (newton grad f x0 niter)
  = newton_rec (grad f) (grad (grad f)) x0 (Z.to_nat niter).
Proof.
  unfold newton, derivative. cbn [bind emit ret].
  rewrite for_in_newton_body, length_range.
  reflexivity.
Qed.

(** C3.  For [niter >= 0], a run of [gd] and a run of [newton] execute their
    loop body exactly [niter] times, whatever the function, the initial
    point, the step size and the decay factor are. *)
Theorem fixed_iteration_count (f : T -> T) (x0 step decay : T) (niter : Z) :
  (0 <= niter)%Z ->
  Z.of_nat (updates (trace (gd grad f x0 step decay niter))) = niter /\
  Z.of_nat (updates (trace (newton grad f x0 niter))) = niter.
Proof.
  intros Hn. rewrite gd_run, newton_run. unfold trace, updates. cbn.
  fold (updates (map (@Iteration T) (range niter))).
  rewrite updates_iterations, length_range. lia.
Qed.

(** C8.  A run of [gd] calls the oracle exactly once, on [f]; a run of
    [newton] calls it exactly twice, on [f] and then on the derivative it got
    for [f].  In both the calls come before every iteration and do not depend
    on [niter], and each iteration uses the functions these calls
    returned. *)
Theorem oracle_call_discipline (f : T -> T) (x0 step decay : T) (niter : Z) :
  (trace (gd grad f x0 step decay niter)
   = Derivative f :: map Iteration (range niter) /\
   oracle_calls (trace (gd grad f x0 step decay niter)) = 1%nat /\
   value (gd grad f x0 step decay niter)
   = fst (gd_rec (grad f) x0 step decay (Z.to_nat niter))) /\
  (trace (newton grad f x0 niter)
   = Derivative f :: Derivative (grad f) :: map Iteration (range niter) /\
   oracle_calls (trace (newton grad f x0 niter)) = 2%nat /\
   value (newton grad f x0 niter)
   = newton_rec (grad f) (grad (grad f)) x0 (Z.to_nat niter)).
Proof.
  rewrite gd_run, newton_run. unfold trace, value, oracle_calls. cbn.
  fold (oracle_calls (map (@Iteration T) (range niter))).
  rewrite oracle_calls_iterations. repeat split.
Qed.

(** C9.  For [niter <= 0], negative values included, [gd] and [newton]
    execute their loop body zero times and return [x0]; the run is the run
    for [niter = 0]. *)
Theorem nonpositive_niter_returns_x0
  (f : T -> T) (x0 step decay : T) (niter : Z) :
  (niter <= 0)%Z ->
  (value (gd grad f x0 step decay niter) = x0 /\
   updates (trace (gd grad f x0 step decay niter)) = 0%nat /\
   gd grad f x0 step decay niter = gd grad f x0 step decay 0) /\
  (value (newton grad f x0 niter) = x0 /\
   updates (trace (newton grad f x0 niter)) = 0%nat /\
   newton grad f x0 niter = newton grad f x0 0).
Proof.
  intros Hn. rewrite !gd_run, !newton_run, (range_nonpos Hn).
  replace (Z.to_nat niter) with 0%nat by lia.
  repeat split.
Qed.

End Generic.

Section Exact.

Local Open Scope R_scope.

Variable grad : (R -> R) -> (R -> R).

(** C4, as amended.  On the reals (exact arithmetic), with an oracle that
    is exact on [(x - c)**2] and on the derivative it returns for it,
    [newton] started at any [x0] returns [c] after one iteration, and after
    any larger number of iterations.  In floating point the first update is
    rounded and need not give [c]. *)
Theorem newton_parabola_one_iteration (c x0 : R) (niter : Z) :
  exact_on grad (parabola c) ->
  exact_on grad (grad (parabola c)) ->
  (1 <= niter)%Z ->
  value (newton grad (parabola c) x0 niter) = c.
Proof.
  intros Hg Hgg Hn. rewrite newton_run. cbn [value fst].
  destruct (Z.to_nat niter) as [|k] eqn:Hk; [lia|].
  cbn [newton_rec].
  rewrite (exact_parabola_second Hg Hgg), (exact_parabola Hg).
  simpl. field.
Qed.

(** C5.  For [f(x) = x**2], an exact oracle, [decay = 1] and a step size in
    [[0, 1]], the objective does not increase at any iteration of a run of
    [gd]: [f(x_{i+1}) <= f(x_i)] for every [i < niter]. *)
Theorem gd_square_monotone (x0 step : R) (niter : Z) (i : nat) :
  exact_on grad square ->
  0 <= step <= 1 ->
  (Z.of_nat i < niter)%Z ->
  square (fst (gd_locals grad square x0 step 1 niter (S i)))
  <= square (fst (gd_locals grad square x0 step 1 niter i)).
Proof.
  intros Hg Hs Hi. rewrite !gd_locals_rec by lia.
  cbn [gd_rec fst snd]. rewrite gd_rec_step, (exact_square Hg), pow1.
  set (x := fst (gd_rec (grad square) x0 step 1 i)).
  clearbody x. unfold square. simpl.
  assert (Hx : 0 <= x * x) by nra.
  assert (Hc : 0 <= step * (1 - step)) by nra.
  replace ((x - 2 * x * (step * 1)) * ((x - 2 * x * (step * 1)) * 1))
    with (x * x - 4 * ((x * x) * (step * (1 - step)))) by ring.
  assert (0 <= (x * x) * (step * (1 - step))) by now apply Rmult_le_pos.
  lra.
Qed.

(** C6, as amended.  On the reals (exact arithmetic), in a run of [gd],
    after [i] iterations ([0 <= i <= niter]) the step size is
    [step0 * decay^i], and this is the step size the next update is made
    with.  In floating point each product is rounded and can underflow. *)
Theorem gd_step_decay (f : R -> R) (x0 step0 decay : R) (niter : Z) (i : nat) :
  (Z.of_nat i <= niter)%Z ->
  snd (gd_locals grad f x0 step0 decay niter i) = step0 * decay ^ i /\
  ((Z.of_nat i < niter)%Z ->
   fst (gd_locals grad f x0 step0 decay niter (S i))
   = fst (gd_locals grad f x0 step0 decay niter i)
     - grad f (fst (gd_locals grad f x0 step0 decay niter i))
       * (step0 * decay ^ i)).
Proof.
  intros Hi. split.
  - rewrite gd_locals_rec by lia. apply gd_rec_step.
  - intros Hlt. rewrite !gd_locals_rec by lia.
    cbn [gd_rec fst snd]. rewrite gd_rec_step. reflexivity.
Qed.


End Exact.

(** C7.  In IEEE-754 arithmetic of any format, when the second derivative
    evaluates to zero at [x0], [newton] with [niter >= 1] returns a value
    that is not finite (an infinity or a NaN): the division is not guarded,
    the run makes its [niter] iterations as any other run does, and the
    value is returned as it is. *)
Theorem newton_zero_second_derivative
  (prec emax : Z) (grad : (spec_float -> spec_float) -> spec_float -> spec_float)
  (f : spec_float -> spec_float) (x0 : spec_float) (niter : Z) :
  is_zero (grad (grad f) x0) = true ->
  (1 <= niter)%Z ->
  is_finite (value (newton (N := ieee prec emax) grad f x0 niter)) = false /\
  Z.of_nat (updates (trace (newton (N := ieee prec emax) grad f x0 niter)))
  = niter.
Proof.
  intros Hz Hn. rewrite newton_run. cbn [value trace fst snd]. split.
  - destruct (Z.to_nat niter) as [|k] eqn:Hk; [lia|].
    rewrite newton_rec_shift. apply newton_rec_nonfinite.
    apply SFsub_nonfinite_r, SFdiv_by_zero, Hz.
  - unfold updates. cbn.
    fold (updates (map (@Iteration spec_float) (range niter))).
    rewrite updates_iterations, length_range. lia.
Qed.

(** * The properties at concrete runs *)

(** Three iterations in binary32 on [x**3] from [0.0]. *)
Lemma fixed_iteration_count_witness :
  let one := SFone 24 128 in
  Z.of_nat (updates (trace (gd (N := binary32) (central_difference 24 128)
                               (cube 24 128) (S754_zero false) one one 3)))
  = 3%Z /\
  Z.of_nat (updates (trace (newton (N := binary32) (central_difference 24 128)
                                   (cube 24 128) (S754_zero false) 3)))
  = 3%Z.
Proof.
  intros one.
  apply (@fixed_iteration_count spec_float binary32 (central_difference 24 128)
           (cube 24 128) (S754_zero false) one one 3).
  lia.
Defined.

(** A run with [niter = -2] on the reals. *)
Lemma nonpositive_niter_returns_x0_witness :
  (value (gd Rgrad square 4%R (1 / 10)%R 1%R (-2)) = 4%R /\
   updates (trace (gd Rgrad square 4%R (1 / 10)%R 1%R (-2))) = 0%nat /\
   gd Rgrad square 4%R (1 / 10)%R 1%R (-2)
   = gd Rgrad square 4%R (1 / 10)%R 1%R 0) /\
  (value (newton Rgrad square 4%R (-2)) = 4%R /\
   updates (trace (newton Rgrad square 4%R (-2))) = 0%nat /\
   newton Rgrad square 4%R (-2) = newton Rgrad square 4%R 0).
Proof.
  apply (@nonpositive_niter_returns_x0 R real_number Rgrad square
           4%R (1 / 10)%R 1%R (-2)).
  lia.
Defined.

(** [(x - 3)**2] from [10] with the ideal oracle. *)
Lemma newton_parabola_one_iteration_witness :
  value (newton Rgrad (parabola 3) 10%R 1) = 3%R.
Proof.
  apply (@newton_parabola_one_iteration Rgrad 3%R 10%R 1
           (Rgrad_exact_parabola 3) (Rgrad_exact_parabola_second 3)).
  lia.
Defined.

(** [x**2] from [4] with step size [1/10]: third against second iterate. *)
Lemma gd_square_monotone_witness :
  (square (fst (gd_locals Rgrad square 4 (1 / 10) 1 5 3))
   <= square (fst (gd_locals Rgrad square 4 (1 / 10) 1 5 2)))%R.
Proof.
  apply (@gd_square_monotone Rgrad 4%R (1 / 10)%R 5 2 Rgrad_exact_square).
  - lra.
  - lia.
Defined.

(** The defaults of [gd], [step = 0.1] and [decay = 0.995], after seven of
    a hundred iterations. *)
Lemma gd_step_decay_witness :
  (snd (gd_locals Rgrad square 4 (1 / 10) (995 / 1000) 100 7)
   = 1 / 10 * (995 / 1000) ^ 7 /\
   fst (gd_locals Rgrad square 4 (1 / 10) (995 / 1000) 100 8)
   = fst (gd_locals Rgrad square 4 (1 / 10) (995 / 1000) 100 7)
     - Rgrad square
         (fst (gd_locals Rgrad square 4 (1 / 10) (995 / 1000) 100 7))
       * (1 / 10 * (995 / 1000) ^ 7))%R.
Proof.
  assert (Hle : (Z.of_nat 7 <= 100)%Z) by lia.
  destruct (@gd_step_decay Rgrad square 4%R (1 / 10)%R (995 / 1000)%R 100 7 Hle)
    as [Hstep Hnext].
  split; [exact Hstep | apply Hnext; lia].
Defined.


(** [x**3] in binary32 from its inflection point [0.0]. *)
Lemma newton_zero_second_derivative_witness :
  is_zero (central_difference 24 128 (central_difference 24 128 (cube 24 128))
             (S754_zero false)) = true /\
  is_finite (value (newton (N := binary32) (central_difference 24 128)
                           (cube 24 128) (S754_zero false) 1)) = false /\
  Z.of_nat (updates (trace (newton (N := binary32) (central_difference 24 128)
                                   (cube 24 128) (S754_zero false) 1)))
  = 1%Z.
Proof.
  assert (Hz : is_zero (central_difference 24 128
                          (central_difference 24 128 (cube 24 128))
                          (S754_zero false)) = true)
    by (vm_compute; reflexivity).
  split; [exact Hz|].
  apply (@newton_zero_second_derivative 24 128 (central_difference 24 128)
           (cube 24 128) (S754_zero false) 1 Hz).
  lia.
Defined.

(** * Further properties of the optimisers *)

(** ** Runs in any numeric type *)

Section Resuming.

Context {T : Type} {N : Number T}.
Variable grad : (T -> T) -> (T -> T).

Local Open Scope num_scope.

(** [m + n] steps of the recurrence are [m] steps and then [n] steps from
    where these ended. *)
Lemma gd_rec_add (df : T -> T) (x0 s0 decay : T) (m n : nat) :
  gd_rec df x0 s0 decay (m + n)
  = gd_rec df (fst (gd_rec df x0 s0 decay m)) (snd (gd_rec df x0 s0 decay m))
      decay n.
Proof.
  induction n as [|n IH].
  - rewrite Nat.add_0_r. cbn [gd_rec]. now destruct (gd_rec df x0 s0 decay m).
  - rewrite Nat.add_succ_r. cbn [gd_rec]. now rewrite IH.
Qed.

Lemma newton_rec_add (df ddf : T -> T) (x0 : T) (m n : nat) :
  newton_rec df ddf x0 (m + n)
  = newton_rec df ddf (newton_rec df ddf x0 m) n.
Proof.
  induction n as [|n IH].
  - now rewrite Nat.add_0_r.
  - rewrite Nat.add_succ_r. cbn [newton_rec]. now rewrite IH.
Qed.

(** X1.  A run of [gd] of [m + n] iterations returns what a run of [n]
    iterations returns that is started at the result of a run of [m]
    iterations, with the step size these [m] iterations ended with. *)
Theorem gd_resume (f : T -> T) (x0 step decay : T) (m n : Z) :
  (0 <= m)%Z -> (0 <= n)%Z ->
  value (gd grad f x0 step decay (m + n))
  = value (gd grad f
             (value (gd grad f x0 step decay m))
             (snd (gd_locals grad f x0 step decay m (Z.to_nat m)))
             decay n).
Proof.
  intros Hm Hn.
  rewrite gd_locals_rec by apply Nat.le_refl.
  rewrite !gd_run. cbn [value fst].
  rewrite Z2Nat.inj_add by assumption.
  now rewrite gd_rec_add.
Qed.

(** X2.  A run of [newton] of [m + n] iterations returns what a run of [n]
    iterations started at the result of a run of [m] iterations returns:
    the method keeps nothing from one iteration to the next but [x]. *)
Theorem newton_resume (f : T -> T) (x0 : T) (m n : Z) :
  (0 <= m)%Z -> (0 <= n)%Z ->
  value (newton grad f x0 (m + n))
  = value (newton grad f (value (newton grad f x0 m)) n).
Proof.
  intros Hm Hn. rewrite !newton_run. cbn [value fst].
  rewrite Z2Nat.inj_add by assumption.
  now rewrite newton_rec_add.
Qed.

End Resuming.

(** ** Runs in floating point *)

Section FloatRuns.

Variables prec emax : Z.
Variable grad : (spec_float -> spec_float) -> (spec_float -> spec_float).

Lemma SFmul_nonfinite_l (a b : spec_float) :
  is_finite a = false -> is_finite (SFmul prec emax a b) = false.
Proof.
  destruct a as [s|s| |s m e]; try discriminate; intros _; now destruct b.
Qed.

Lemma SFmul_nonfinite_r (a b : spec_float) :
  is_finite b = false -> is_finite (SFmul prec emax a b) = false.
Proof.
  destruct b as [s|s| |s m e]; try discriminate; intros _; now destruct a.
Qed.

Lemma SFdiv_nonfinite_l (a b : spec_float) :
  is_finite a = false -> is_finite (SFdiv prec emax a b) = false.
Proof.
  destruct a as [s|s| |s m e]; try discriminate; intros _; now destruct b.
Qed.

(** Once an iterate is not finite, the later ones are not either. *)
Lemma gd_rec_stays_nonfinite (df : spec_float -> spec_float)
  (x0 s0 decay : spec_float) (k n : nat) :
  (k <= n)%nat ->
  is_finite (fst (gd_rec (N := ieee prec emax) df x0 s0 decay k)) = false ->
  is_finite (fst (gd_rec (N := ieee prec emax) df x0 s0 decay n)) = false.
Proof.
  intros Hkn Hk. induction Hkn as [|n Hkn IH]; [exact Hk|].
  cbn [gd_rec fst]. now apply SFsub_nonfinite_l.
Qed.

Lemma newton_rec_stays_nonfinite (df ddf : spec_float -> spec_float)
  (x0 : spec_float) (k n : nat) :
  (k <= n)%nat ->
  is_finite (newton_rec (N := ieee prec emax) df ddf x0 k) = false ->
  is_finite (newton_rec (N := ieee prec emax) df ddf x0 n) = false.
Proof.
  intros Hkn Hk. induction Hkn as [|n Hkn IH]; [exact Hk|].
  cbn [newton_rec]. now apply SFsub_nonfinite_l.
Qed.

(** X3.  In floating point, if at a point [x_i] that a run of [newton]
    visits ([i < niter]) the second derivative evaluates to zero or the first
    derivative to an infinity or a NaN, the run returns an infinity or a
    NaN. *)
Theorem newton_breaks_at_visited_point
  (f : spec_float -> spec_float) (x0 : spec_float) (niter : Z) (i : nat) :
  (Z.of_nat i < niter)%Z ->
  is_zero (grad (grad f)
             (value (newton (N := ieee prec emax) grad f x0 (Z.of_nat i))))
  = true \/
  is_finite (grad f
               (value (newton (N := ieee prec emax) grad f x0 (Z.of_nat i))))
  = false ->
  is_finite (value (newton (N := ieee prec emax) grad f x0 niter)) = false.
Proof.
  intros Hi Hbad. rewrite newton_run in *. cbn [value fst] in *.
  rewrite Nat2Z.id in Hbad.
  apply newton_rec_stays_nonfinite with (k := S i); [lia|].
  cbn [newton_rec].
  apply SFsub_nonfinite_r. destruct Hbad as [Hz|Hd].
  - now apply SFdiv_by_zero.
  - now apply SFdiv_nonfinite_l.
Qed.

(** X4.  In floating point, if at a point [x_i] that a run of [gd] visits
    ([i < niter]) the derivative evaluates to an infinity or a NaN, or the
    step size has become one, the run returns an infinity or a NaN. *)
Theorem gd_breaks_at_visited_point
  (f : spec_float -> spec_float) (x0 step decay : spec_float)
  (niter : Z) (i : nat) :
  (Z.of_nat i < niter)%Z ->
  is_finite (grad f (fst (gd_locals (N := ieee prec emax) grad f x0 step decay
                            niter i))) = false \/
  is_finite (snd (gd_locals (N := ieee prec emax) grad f x0 step decay
                    niter i)) = false ->
  is_finite (value (gd (N := ieee prec emax) grad f x0 step decay niter))
  = false.
Proof.
  intros Hi Hbad. rewrite gd_locals_rec in Hbad by lia.
  rewrite gd_run. cbn [value fst].
  apply gd_rec_stays_nonfinite with (k := S i); [lia|].
  cbn [gd_rec fst].
  apply SFsub_nonfinite_r. destruct Hbad as [Hd|Hs].
  - now apply SFmul_nonfinite_l.
  - now apply SFmul_nonfinite_r.
Qed.

(** X5.  In floating point, started at an infinity or a NaN both optimisers
    return an infinity or a NaN, for every iteration count. *)
Theorem nonfinite_start_stays_nonfinite
  (f : spec_float -> spec_float) (x0 step decay : spec_float) (niter : Z) :
  is_finite x0 = false ->
  is_finite (value (gd (N := ieee prec emax) grad f x0 step decay niter))
  = false /\
  is_finite (value (newton (N := ieee prec emax) grad f x0 niter)) = false.
Proof.
  intros Hx. rewrite gd_run, newton_run. cbn [value fst]. split.
  - now apply gd_rec_stays_nonfinite with (k := 0%nat); [lia|].
  - now apply newton_rec_stays_nonfinite with (k := 0%nat); [lia|].
Qed.

(** X6.  In floating point, an infinite or NaN step size makes [gd] return
    an infinity or a NaN as soon as [niter >= 1], and an infinite or NaN
    decay factor as soon as [niter >= 2]. *)
Theorem gd_nonfinite_step_or_decay
  (f : spec_float -> spec_float) (x0 step decay : spec_float) (niter : Z) :
  (is_finite step = false /\ (1 <= niter)%Z) \/
  (is_finite decay = false /\ (2 <= niter)%Z) ->
  is_finite (value (gd (N := ieee prec emax) grad f x0 step decay niter))
  = false.
Proof.
  intros Hbad. rewrite gd_run. cbn [value fst].
  destruct Hbad as [[Hs Hn]|[Hd Hn]].
  - apply gd_rec_stays_nonfinite with (k := 1%nat); [lia|].
    cbn [gd_rec fst snd].
    now apply SFsub_nonfinite_r, SFmul_nonfinite_r.
  - apply gd_rec_stays_nonfinite with (k := 2%nat); [lia|].
    cbn [gd_rec fst snd].
    now apply SFsub_nonfinite_r, SFmul_nonfinite_r, SFmul_nonfinite_r.
Qed.

End FloatRuns.

(** ** Runs on the reals *)

Section ExactRuns.

Local Open Scope R_scope.

Lemma derivable_pt_lim_quadratic (a b c x : R) :
  derivable_pt_lim (quadratic a b c) x (2 * a * x + b).
Proof.
  intros eps Heps.
  assert (Hd : 0 < Rabs a + 1) by (pose proof (Rabs_pos a); lra).
  assert (Hpos : 0 < eps / (Rabs a + 1)) by now apply Rdiv_lt_0_compat.
  exists (mkposreal _ Hpos). intros h Hh Hlt. simpl in Hlt.
  unfold quadratic.
  replace ((a * (x + h) ^ 2 + b * (x + h) + c - (a * x ^ 2 + b * x + c)) / h
           - (2 * a * x + b)) with (a * h) by (field; exact Hh).
  rewrite Rabs_mult.
  apply Rle_lt_trans with (Rabs h * (Rabs a + 1)).
  - pose proof (Rabs_pos h). nra.
  - replace eps with (eps / (Rabs a + 1) * (Rabs a + 1)) by (field; lra).
    now apply Rmult_lt_compat_r.
Qed.

Lemma derivable_pt_lim_affine (k b x : R) :
  derivable_pt_lim (fun y => k * y + b) x k.
Proof.
  intros eps Heps. exists (mkposreal eps Heps). intros h Hh Hlt.
  replace ((k * (x + h) + b - (k * x + b)) / h - k) with 0
    by (field; exact Hh).
  now rewrite Rabs_R0.
Qed.

Lemma exact_quadratic (grad : (R -> R) -> (R -> R)) (a b c : R) :
  exact_on grad (quadratic a b c) ->
  forall x, grad (quadratic a b c) x = 2 * a * x + b.
Proof.
  intros Hg x.
  exact (uniqueness_limite _ _ _ _ (Hg x) (derivable_pt_lim_quadratic a b c x)).
Qed.

Lemma exact_quadratic_second (grad : (R -> R) -> (R -> R)) (a b c : R) :
  exact_on grad (quadratic a b c) ->
  exact_on grad (grad (quadratic a b c)) ->
  forall x, grad (grad (quadratic a b c)) x = 2 * a.
Proof.
  intros Hg Hgg x.
  apply (uniqueness_limite _ _ _ _ (Hgg x)).
  apply derivable_pt_lim_pointwise with (f := fun y => 2 * a * y + b).
  - intros y. symmetry. now apply exact_quadratic.
  - apply derivable_pt_lim_affine.
Qed.

Lemma Rgrad_exact_quadratic (a b c : R) : exact_on Rgrad (quadratic a b c).
Proof.
  intros x. rewrite (Rgrad_derivative (derivable_pt_lim_quadratic a b c x)).
  apply derivable_pt_lim_quadratic.
Qed.

Lemma Rgrad_exact_quadratic_second (a b c : R) :
  exact_on Rgrad (Rgrad (quadratic a b c)).
Proof.
  assert (H2 : forall x, derivable_pt_lim (Rgrad (quadratic a b c)) x (2 * a)).
  { intros x.
    apply derivable_pt_lim_pointwise with (f := fun y => 2 * a * y + b).
    - intros y. symmetry. apply Rgrad_derivative, derivable_pt_lim_quadratic.
    - apply derivable_pt_lim_affine. }
  intros x. rewrite (Rgrad_derivative (H2 x)). apply H2.
Qed.

(** The iterates of [gd] on [x**2] with a constant step size. *)
Lemma gd_rec_square (df : R -> R) (x0 step : R) (k : nat) :
  (forall x, df x = 2 * x) ->
  fst (gd_rec df x0 step 1 k) = x0 * (1 - 2 * step) ^ k.
Proof.
  intros Hdf. induction k as [|k IH].
  - simpl. ring.
  - cbn [gd_rec fst]. rewrite gd_rec_step, Hdf, IH, pow1. simpl. ring.
Qed.

(** How far the iterates of [gd] can be from the start when the derivative
    is bounded. *)
Lemma gd_rec_reach (df : R -> R) (x0 step decay M : R) (k : nat) :
  (forall x, Rabs (df x) <= M) -> 0 <= step -> 0 <= decay < 1 ->
  Rabs (fst (gd_rec df x0 step decay k) - x0) * (1 - decay)
  <= M * step * (1 - decay ^ k).
Proof.
  intros Hdf Hs Hd. induction k as [|k IH].
  - simpl. replace (x0 - x0) with 0 by ring. rewrite Rabs_R0. lra.
  - cbn [gd_rec fst]. rewrite gd_rec_step.
    set (x := fst (gd_rec df x0 step decay k)) in *.
    assert (Hp : 0 <= decay ^ k) by (apply pow_le; lra).
    assert (Hsp : 0 <= step * decay ^ k) by now apply Rmult_le_pos.
    assert (Htri : Rabs (x - df x * (step * decay ^ k) - x0)
                   <= Rabs (x - x0) + M * (step * decay ^ k)).
    { replace (x - df x * (step * decay ^ k) - x0)
        with ((x - x0) + - (df x * (step * decay ^ k))) by ring.
      eapply Rle_trans; [apply Rabs_triang|].
      rewrite Rabs_Ropp, Rabs_mult, (Rabs_pos_eq _ Hsp).
      apply Rplus_le_compat_l, Rmult_le_compat_r; [exact Hsp | apply Hdf]. }
    simpl (decay ^ S k).
    apply Rle_trans
      with ((Rabs (x - x0) + M * (step * decay ^ k)) * (1 - decay)).
    + apply Rmult_le_compat_r; [lra | exact Htri].
    + rewrite Rmult_plus_distr_r.
      replace (M * step * (1 - decay * decay ^ k))
        with (M * step * (1 - decay ^ k)
              + M * (step * decay ^ k) * (1 - decay)) by ring.
      now apply Rplus_le_compat_r.
Qed.

Variable grad : (R -> R) -> (R -> R).

(** X7.  With an exact oracle, [newton] on [a*x**2 + b*x + c], [a <> 0],
    returns the critical point [-b / (2*a)] after one iteration from any
    start, and after any larger number; this whether the critical point is
    a minimum ([a > 0]) or a maximum ([a < 0]). *)
Theorem newton_quadratic_vertex (a b c x0 : R) (niter : Z) :
  a <> 0 ->
  exact_on grad (quadratic a b c) ->
  exact_on grad (grad (quadratic a b c)) ->
  (1 <= niter)%Z ->
  value (newton grad (quadratic a b c) x0 niter) = - b / (2 * a).
Proof.
  intros Ha Hg Hgg Hn. rewrite newton_run. cbn [value fst].
  destruct (Z.to_nat niter) as [|k] eqn:Hk; [lia|].
  cbn [newton_rec].
  rewrite (exact_quadratic_second Hg Hgg), (exact_quadratic Hg).
  simpl. field. exact Ha.
Qed.

(** X8.  With an exact oracle and [decay = 1], [gd] on [x**2] returns
    [x0 * (1 - 2*step)^niter]. *)
Theorem gd_square_closed_form (x0 step : R) (niter : Z) :
  exact_on grad square ->
  value (gd grad square x0 step 1 niter)
  = x0 * (1 - 2 * step) ^ Z.to_nat niter.
Proof.
  intros Hg. rewrite gd_run. cbn [value fst].
  apply gd_rec_square, (exact_square Hg).
Qed.

(** X9.  With an exact oracle, [decay = 1] and a step size strictly between
    0 and 1, [gd] on [x**2] converges to the minimiser 0: the result is as
    close to 0 as wanted for every large enough [niter]. *)
Theorem gd_square_converges (x0 step eps : R) :
  exact_on grad square ->
  0 < step < 1 ->
  0 < eps ->
  exists n0 : Z, forall niter : Z, (n0 <= niter)%Z ->
    Rabs (value (gd grad square x0 step 1 niter)) < eps.
Proof.
  intros Hg Hs Heps.
  assert (Hq : Rabs (1 - 2 * step) < 1) by (apply Rabs_def1; lra).
  assert (Hd : 0 < Rabs x0 + 1) by (pose proof (Rabs_pos x0); lra).
  assert (Hy : 0 < eps / (Rabs x0 + 1)) by now apply Rdiv_lt_0_compat.
  destruct (pow_lt_1_zero _ Hq _ Hy) as [n0 Hn0].
  exists (Z.of_nat n0). intros niter Hn.
  rewrite gd_run. cbn [value fst].
  rewrite (gd_rec_square (grad square) _ _ _ (exact_square Hg)), Rabs_mult.
  assert (Hpow : Rabs ((1 - 2 * step) ^ Z.to_nat niter)
                 < eps / (Rabs x0 + 1)) by (apply Hn0; lia).
  apply Rle_lt_trans
    with (Rabs ((1 - 2 * step) ^ Z.to_nat niter) * (Rabs x0 + 1)).
  - pose proof (Rabs_pos ((1 - 2 * step) ^ Z.to_nat niter)). nra.
  - replace eps with (eps / (Rabs x0 + 1) * (Rabs x0 + 1)) at 1
      by (field; lra).
    now apply Rmult_lt_compat_r.
Qed.

(** X10.  With an exact oracle, [decay = 1] and a step size outside
    [[0, 1]], [gd] on [x**2] started anywhere but at 0 moves away from the
    minimiser: the objective strictly increases at every iteration.  No
    guard stops the run. *)
Theorem gd_square_overshoot (x0 step : R) (niter : Z) (i : nat) :
  exact_on grad square ->
  step < 0 \/ 1 < step ->
  x0 <> 0 ->
  (Z.of_nat i < niter)%Z ->
  square (fst (gd_locals grad square x0 step 1 niter i))
  < square (fst (gd_locals grad square x0 step 1 niter (S i))).
Proof.
  intros Hg Hs Hx Hi. rewrite !gd_locals_rec by lia.
  cbn [gd_rec fst snd]. rewrite gd_rec_step, (exact_square Hg), pow1.
  assert (Hxi : fst (gd_rec (grad square) x0 step 1 i) <> 0).
  { rewrite (gd_rec_square (grad square) _ _ _ (exact_square Hg)).
    apply Rmult_integral_contrapositive_currified; [exact Hx|].
    apply pow_nonzero. lra. }
  set (x := fst (gd_rec (grad square) x0 step 1 i)) in *.
  clearbody x. unfold square. simpl.
  assert (Hxx : 0 < x * x) by (destruct (Rtotal_order x 0) as [?|[?|?]]; nra).
  assert (Hc : 0 < step * (step - 1)) by (destruct Hs; nra).
  replace ((x - 2 * x * (step * 1)) * ((x - 2 * x * (step * 1)) * 1))
    with (x * (x * 1) + 4 * ((x * x) * (step * (step - 1)))) by ring.
  assert (0 < (x * x) * (step * (step - 1))) by now apply Rmult_lt_0_compat.
  lra.
Qed.

(** X11.  When the derivative the oracle returns is bounded by [M], the
    step size is not negative and [0 <= decay < 1], a run of [gd] ends
    within [M * step / (1 - decay)] of its start, for every [niter]: the
    decaying step size bounds how far the point can travel. *)
Theorem gd_reach (f : R -> R) (x0 step decay M : R) (niter : Z) :
  (forall x, Rabs (grad f x) <= M) ->
  0 <= step ->
  0 <= decay < 1 ->
  Rabs (value (gd grad f x0 step decay niter) - x0)
  <= M * step / (1 - decay).
Proof.
  intros Hdf Hs Hd. rewrite gd_run. cbn [value fst].
  pose proof (gd_rec_reach (grad f) x0 (Z.to_nat niter) Hdf Hs Hd) as Hr.
  assert (HM : 0 <= M)
    by (eapply Rle_trans; [apply Rabs_pos | apply (Hdf 0)]).
  assert (Hp : 0 <= decay ^ Z.to_nat niter) by (apply pow_le; lra).
  assert (HMs : 0 <= M * step) by now apply Rmult_le_pos.
  apply Rmult_le_reg_r with (1 - decay); [lra|].
  replace (M * step / (1 - decay) * (1 - decay)) with (M * step)
    by (field; lra).
  eapply Rle_trans; [exact Hr|]. nra.
Qed.

End ExactRuns.

(** ** The objective [foo] *)

Section Foo.

Local Open Scope R_scope.

Lemma derivable_pt_lim_foo (x : R) :
  derivable_pt_lim foo x
    (exp (- (x - 1) ^ 2) * (cos x - 2 * (x - 1) * sin x)).
Proof.
  assert (Hg : derivable_pt_lim (fun y => - (y - 1) ^ 2) x (- (2 * (x - 1)))).
  { intros eps Heps. exists (mkposreal eps Heps). intros h Hh Hlt.
    replace ((- (x + h - 1) ^ 2 - - (x - 1) ^ 2) / h - - (2 * (x - 1)))
      with (- h) by (field; exact Hh).
    now rewrite Rabs_Ropp. }
  pose proof (derivable_pt_lim_comp _ exp x _ _ Hg (derivable_pt_lim_exp _))
    as He.
  pose proof (derivable_pt_lim_mult _ _ x _ _ He (derivable_pt_lim_sin x))
    as Hm.
  apply derivable_pt_lim_pointwise with (g := foo) in Hm;
    [|intros y; reflexivity].
  replace (exp (- (x - 1) ^ 2) * (cos x - 2 * (x - 1) * sin x))
    with (exp (- (x - 1) ^ 2) * - (2 * (x - 1)) * sin x
          + comp exp (fun y => - (y - 1) ^ 2) x * cos x)
    by (unfold comp; ring).
  exact Hm.
Qed.

Lemma foo_slope_bound (x : R) :
  Rabs (exp (- (x - 1) ^ 2) * (cos x - 2 * (x - 1) * sin x)) <= 2.
Proof.
  set (u := x - 1). set (E := exp (- u ^ 2)).
  assert (HE : 0 < E) by apply exp_pos.
  assert (HE1 : E * (1 + u ^ 2) <= 1).
  { apply Rle_trans with (E * exp (u ^ 2)).
    - apply Rmult_le_compat_l; [lra | apply exp_ineq1_le].
    - unfold E. rewrite <- exp_plus.
      replace (- u ^ 2 + u ^ 2) with 0 by ring. rewrite exp_0. lra. }
  assert (Hc : Rabs (cos x) <= 1)
    by (apply Rabs_le; pose proof (COS_bound x); lra).
  assert (Hs : Rabs (sin x) <= 1)
    by (apply Rabs_le; pose proof (SIN_bound x); lra).
  assert (Hau : Rabs u ^ 2 = u ^ 2) by apply pow2_abs.
  pose proof (Rabs_pos u) as Hu0.
  pose proof (Rabs_pos (sin x)) as Hs0.
  assert (Ht : Rabs (cos x - 2 * u * sin x) <= 1 + 2 * Rabs u).
  { unfold Rminus. eapply Rle_trans; [apply Rabs_triang|].
    rewrite Rabs_Ropp, !Rabs_mult, (Rabs_pos_eq 2) by lra. nra. }
  rewrite Rabs_mult, (Rabs_pos_eq E) by lra.
  apply Rle_trans with (E * (1 + 2 * Rabs u)).
  - apply Rmult_le_compat_l; [lra | exact Ht].
  - assert (1 + 2 * Rabs u <= 2 * (1 + u ^ 2)) by nra.
    apply Rle_trans with (E * (2 * (1 + u ^ 2))).
    + apply Rmult_le_compat_l; [lra | assumption].
    + lra.
Qed.

Variable grad : (R -> R) -> (R -> R).

(** X12.  What an exact oracle returns for [foo]:
    [exp(-(x-1)**2) * (cos(x) - 2*(x-1)*sin(x))], which is at most 2 in
    absolute value at every point. *)
Theorem foo_derivative (x : R) :
  exact_on grad foo ->
  grad foo x = exp (- (x - 1) ^ 2) * (cos x - 2 * (x - 1) * sin x) /\
  Rabs (grad foo x) <= 2.
Proof.
  intros Hg.
  assert (He : grad foo x
               = exp (- (x - 1) ^ 2) * (cos x - 2 * (x - 1) * sin x))
    by exact (uniqueness_limite _ _ _ _ (Hg x) (derivable_pt_lim_foo x)).
  split; [exact He|]. rewrite He. apply foo_slope_bound.
Qed.

(** X13.  With an exact oracle, [gd] on [foo] with the default step size
    0.1 and the default decay 0.995 ends within 40 of its start, from every
    start and for every [niter]. *)
Theorem gd_foo_reach (x0 : R) (niter : Z) :
  exact_on grad foo ->
  Rabs (value (gd grad foo x0 (1 / 10) (995 / 1000) niter) - x0) <= 40.
Proof.
  intros Hg. rewrite gd_run. cbn [value fst].
  assert (Hdf : forall x, Rabs (grad foo x) <= 2).
  { intros x.
    rewrite (uniqueness_limite _ _ _ _ (Hg x) (derivable_pt_lim_foo x)).
    apply foo_slope_bound. }
  assert (Hs : 0 <= 1 / 10) by lra.
  assert (Hd : 0 <= 995 / 1000 < 1) by lra.
  pose proof (gd_rec_reach (grad foo) x0 (Z.to_nat niter) Hdf Hs Hd) as Hr.
  assert (Hp : 0 <= (995 / 1000) ^ Z.to_nat niter) by (apply pow_le; lra).
  lra.
Qed.

End Foo.

(** ** The regression loss *)

Section Loss.

Local Open Scope R_scope.

Lemma np_mul_self (v : list R) : np_mul v v = map (fun e => e * e) v.
Proof.
  unfold np_mul. induction v as [|e v IH]; [reflexivity|].
  simpl. now rewrite IH.
Qed.

(** The residuals, row by row. *)
Lemma residuals_rows (populations cases : list R) (a0 a1 : R) :
  length populations = length cases ->
  np_shift (np_sub (np_log cases) (np_scale a0 (np_log populations))) a1
  = map (fun cp => ln (fst cp) - a0 * ln (snd cp) - a1)
      (combine cases populations).
Proof.
  unfold np_shift, np_sub, np_log, np_scale.
  revert populations.
  induction cases as [|c cases IH]; intros [|p populations] Hlen;
    try discriminate; [reflexivity|].
  simpl. f_equal. apply IH. now injection Hlen.
Qed.

Lemma sum_squares_nonneg (v : list R) :
  0 <= np_sum (map (fun e => e * e) v).
Proof.
  induction v as [|e v IH]; simpl; [lra|]. nra.
Qed.

Lemma sum_squares_zero (v : list R) :
  np_sum (map (fun e => e * e) v) = 0 <-> Forall (fun e => e = 0) v.
Proof.
  induction v as [|e v IH]; simpl.
  - split; [constructor | reflexivity].
  - pose proof (sum_squares_nonneg v) as Hv. split.
    + intros H. constructor; [nra|]. apply IH. nra.
    + intros H. inversion H as [|? ? He Hrest]; subst.
      apply IH in Hrest. rewrite Hrest. ring.
Qed.

Lemma column0_positive (table : list (Z * Z)) :
  forallb (fun row => (0 <? fst row)%Z) table = true ->
  Forall (Rlt 0) (column0 table).
Proof.
  induction table as [|row table IH]; simpl; [constructor|].
  intros H. apply andb_prop in H. destruct H as [Hrow Hrest].
  constructor; [|now apply IH].
  apply (IZR_lt 0). now apply Z.ltb_lt.
Qed.

Lemma column1_positive (table : list (Z * Z)) :
  forallb (fun row => (0 <? snd row)%Z) table = true ->
  Forall (Rlt 0) (column1 table).
Proof.
  induction table as [|row table IH]; simpl; [constructor|].
  intros H. apply andb_prop in H. destruct H as [Hrow Hrest].
  constructor; [|now apply IH].
  apply (IZR_lt 0). now apply Z.ltb_lt.
Qed.

(** X14.  On the reals (exact arithmetic), on arrays of positive numbers
    of one non-zero length, [loss] is never negative, and it is zero exactly
    when every row lies on the line
    [log(cases) = a[0] * log(population) + a[1]]. *)
Theorem loss_nonnegative_zero_iff_fit (populations cases : list R) (a : R * R) :
  Forall (Rlt 0) populations ->
  Forall (Rlt 0) cases ->
  length populations = length cases ->
  cases <> [] ->
  0 <= loss populations cases a /\
  (loss populations cases a = 0 <->
   Forall (fun cp => ln (fst cp) = fst a * ln (snd cp) + snd a)
     (combine cases populations)).
Proof.
  intros _ _ Hlen Hne. unfold loss, np_mean.
  rewrite (residuals_rows _ _ _ _ Hlen), np_mul_self.
  set (err := map (fun cp => ln (fst cp) - fst a * ln (snd cp) - snd a)
                (combine cases populations)).
  assert (Hn : 0 < INR (length (map (fun e => e * e) err))).
  { unfold err. rewrite !length_map, length_combine, Hlen, Nat.min_id.
    apply lt_0_INR. destruct cases; [contradiction | simpl; lia]. }
  pose proof (sum_squares_nonneg err) as Hs. split.
  - apply Rmult_le_pos; [exact Hs | left; now apply Rinv_0_lt_compat].
  - split.
    + intros H0.
      assert (Hz : np_sum (map (fun e => e * e) err) = 0).
      { apply Rmult_eq_reg_r with (/ INR (length (map (fun e => e * e) err))).
        - rewrite Rmult_0_l. exact H0.
        - apply Rinv_neq_0_compat. lra. }
      apply sum_squares_zero in Hz. unfold err in Hz.
      rewrite Forall_map in Hz.
      eapply Forall_impl; [|exact Hz]. simpl. intros cp Hcp. lra.
    + intros Hfit.
      assert (Hz : np_sum (map (fun e => e * e) err) = 0).
      { apply sum_squares_zero. unfold err. rewrite Forall_map.
        eapply Forall_impl; [|exact Hfit]. simpl. intros cp Hcp. lra. }
      rewrite Hz. unfold Rdiv. apply Rmult_0_l.
Qed.

End Loss.

(** ** Fixed points, and the first [foo] *)

Section FixedPoints.

Local Open Scope R_scope.

Variable grad : (R -> R) -> (R -> R).

(** X15.  On the reals, one iteration of [gd] leaves [x0] where it is
    exactly when the derivative vanishes at [x0] or the step size is zero;
    one iteration of [newton], at a point where the second derivative is
    not zero, exactly when the derivative vanishes at [x0].  So the only
    points the updates do not move are critical points. *)
Theorem fixed_points_are_critical_points (f : R -> R) (x0 step decay : R) :
  (value (gd grad f x0 step decay 1) = x0 <-> grad f x0 = 0 \/ step = 0) /\
  (grad (grad f) x0 <> 0 ->
   (value (newton grad f x0 1) = x0 <-> grad f x0 = 0)).
Proof.
  rewrite gd_run, newton_run.
  change (Z.to_nat 1) with 1%nat. cbn [value fst snd gd_rec newton_rec].
  simpl. split; [split | intros Hd; split].
  - intros H. apply Rmult_integral. lra.
  - intros [H|H]; rewrite H; ring.
  - intros H.
    assert (Hq : grad f x0 / grad (grad f) x0 = 0) by lra.
    apply (Rmult_eq_compat_r (grad (grad f) x0)) in Hq.
    rewrite Rmult_0_l in Hq. rewrite <- Hq. now field.
  - intros H. rewrite H. now field.
Qed.

(** X16.  On the reals (exact arithmetic), for [x > 1], where the
    notebook plots it, the first [foo] divides by a positive number, equals
    [exp(-x) + 1/log(x)], is positive and is strictly decreasing. *)
Theorem first_foo_beyond_one (x y : R) :
  1 < x -> x < y ->
  0 < ln x * exp x /\
  Evaluating.foo x = exp (- x) + / ln x /\
  0 < Evaluating.foo y /\
  Evaluating.foo y < Evaluating.foo x.
Proof.
  intros Hx Hxy.
  assert (Hform : forall z, 1 < z ->
            0 < ln z /\ Evaluating.foo z = exp (- z) + / ln z).
  { intros z Hz.
    assert (Hl : 0 < ln z) by (rewrite <- ln_1; apply ln_increasing; lra).
    split; [exact Hl|].
    unfold Evaluating.foo. cbv zeta. rewrite exp_Ropp.
    pose proof (exp_pos z). field. split; lra. }
  destruct (Hform x Hx) as [Hlx Hfx].
  destruct (Hform y (Rlt_trans _ _ _ Hx Hxy)) as [Hly Hfy].
  pose proof (exp_pos x) as Hex. pose proof (exp_pos (- y)) as Hey.
  assert (Hll : ln x < ln y) by (apply ln_increasing; lra).
  assert (Hee : exp (- y) < exp (- x)) by (apply exp_increasing; lra).
  assert (Hinv : / ln y < / ln x).
  { apply Rinv_lt_contravar; [now apply Rmult_lt_0_compat | exact Hll]. }
  assert (Hiy : 0 < / ln y) by now apply Rinv_0_lt_compat.
  repeat split.
  - now apply Rmult_lt_0_compat.
  - exact Hfx.
  - rewrite Hfy. lra.
  - rewrite Hfx, Hfy. lra.
Qed.

End FixedPoints.

(** ** The further properties at concrete runs *)

Lemma Rgrad_exact_foo : exact_on Rgrad foo.
Proof.
  intros x. rewrite (Rgrad_derivative (derivable_pt_lim_foo x)).
  apply derivable_pt_lim_foo.
Qed.

Lemma Rgrad_foo_bounded (x : R) : (Rabs (Rgrad foo x) <= 2)%R.
Proof.
  rewrite (Rgrad_derivative (derivable_pt_lim_foo x)). apply foo_slope_bound.
Qed.

(** Seven iterations of the defaults of [gd] on [x**2], as three and four. *)
Lemma gd_resume_witness :
  value (gd Rgrad square 4%R (1 / 10)%R (995 / 1000)%R (3 + 4))
  = value (gd Rgrad square
             (value (gd Rgrad square 4%R (1 / 10)%R (995 / 1000)%R 3))
             (snd (gd_locals Rgrad square 4%R (1 / 10)%R (995 / 1000)%R 3
                     (Z.to_nat 3)))
             (995 / 1000)%R 4).
Proof.
  apply (@gd_resume R real_number Rgrad square 4%R (1 / 10)%R (995 / 1000)%R
           3 4); lia.
Defined.

Lemma newton_resume_witness :
  value (newton Rgrad foo (1 / 10)%R (3 + 7))
  = value (newton Rgrad foo (value (newton Rgrad foo (1 / 10)%R 3)) 7).
Proof.
  apply (@newton_resume R real_number Rgrad foo (1 / 10)%R 3 7); lia.
Defined.

(** [x**3] in binary32 from its inflection point, two iterations. *)
Lemma newton_breaks_at_visited_point_witness :
  is_finite (value (newton (N := ieee 24 128) (central_difference 24 128)
                           (cube 24 128) (S754_zero false) 2)) = false.
Proof.
  apply (@newton_breaks_at_visited_point 24 128 (central_difference 24 128)
           (cube 24 128) (S754_zero false) 2 0).
  - lia.
  - left. vm_compute. reflexivity.
Defined.

(** [x**3] in binary32 from [2**100]: the cubes the oracle takes
    overflow. *)
Lemma gd_breaks_at_visited_point_witness :
  let one := SFone 24 128 in
  let x0 := SFldexp 24 128 one 100 in
  is_finite (value (gd (N := ieee 24 128) (central_difference 24 128)
                       (cube 24 128) x0 one one 3)) = false.
Proof.
  intros one x0.
  apply (@gd_breaks_at_visited_point 24 128 (central_difference 24 128)
           (cube 24 128) x0 one one 3 0).
  - lia.
  - left. vm_compute. reflexivity.
Defined.

Lemma nonfinite_start_stays_nonfinite_witness :
  let one := SFone 24 128 in
  is_finite (value (gd (N := ieee 24 128) (central_difference 24 128)
                       (cube 24 128) (S754_infinity false) one one 3))
  = false /\
  is_finite (value (newton (N := ieee 24 128) (central_difference 24 128)
                           (cube 24 128) (S754_infinity false) 3)) = false.
Proof.
  intros one.
  apply (@nonfinite_start_stays_nonfinite 24 128 (central_difference 24 128)
           (cube 24 128) (S754_infinity false) one one 3).
  reflexivity.
Defined.

Lemma gd_nonfinite_step_or_decay_witness :
  let one := SFone 24 128 in
  is_finite (value (gd (N := ieee 24 128) (central_difference 24 128)
                       (cube 24 128) one S754_nan one 1)) = false.
Proof.
  intros one.
  apply (@gd_nonfinite_step_or_decay 24 128 (central_difference 24 128)
           (cube 24 128) one S754_nan one 1).
  left. split; [reflexivity | lia].
Defined.

(** [-x**2 + 4*x], whose critical point 2 is a maximum. *)
Lemma newton_quadratic_vertex_witness :
  value (newton Rgrad (quadratic (-1) 4 0) 10%R 1) = (- 4 / (2 * -1))%R.
Proof.
  apply (@newton_quadratic_vertex Rgrad (-1)%R 4%R 0%R 10%R 1).
  - lra.
  - apply Rgrad_exact_quadratic.
  - apply Rgrad_exact_quadratic_second.
  - lia.
Defined.

Lemma gd_square_closed_form_witness :
  value (gd Rgrad square 4%R (1 / 10)%R 1%R 3)
  = (4 * (1 - 2 * (1 / 10)) ^ Z.to_nat 3)%R.
Proof.
  apply (@gd_square_closed_form Rgrad 4%R (1 / 10)%R 3 Rgrad_exact_square).
Defined.

Lemma gd_square_converges_witness :
  exists n0 : Z, forall niter : Z, (n0 <= niter)%Z ->
    (Rabs (value (gd Rgrad square 4%R (1 / 10)%R 1%R niter)) < 1 / 1000)%R.
Proof.
  apply (@gd_square_converges Rgrad 4%R (1 / 10)%R (1 / 1000)%R
           Rgrad_exact_square); lra.
Defined.

Lemma gd_square_overshoot_witness :
  (square (fst (gd_locals Rgrad square 1 2 1 5 2))
   < square (fst (gd_locals Rgrad square 1 2 1 5 3)))%R.
Proof.
  apply (@gd_square_overshoot Rgrad 1%R 2%R 5 2 Rgrad_exact_square).
  - right. lra.
  - lra.
  - lia.
Defined.

Lemma gd_reach_witness :
  (Rabs (value (gd Rgrad foo 0 (1 / 10) (995 / 1000) 200) - 0)
   <= 2 * (1 / 10) / (1 - 995 / 1000))%R.
Proof.
  apply (@gd_reach Rgrad foo 0%R (1 / 10)%R (995 / 1000)%R 2%R 200
           Rgrad_foo_bounded); lra.
Defined.

Lemma foo_derivative_witness :
  (Rgrad foo 1 = exp (- (1 - 1) ^ 2) * (cos 1 - 2 * (1 - 1) * sin 1) /\
   Rabs (Rgrad foo 1) <= 2)%R.
Proof.
  apply (@foo_derivative Rgrad 1%R Rgrad_exact_foo).
Defined.

Lemma gd_foo_reach_witness :
  (Rabs (value (gd Rgrad foo 0 (1 / 10) (995 / 1000) 200) - 0) <= 40)%R.
Proof.
  apply (@gd_foo_reach Rgrad 0%R 200 Rgrad_exact_foo).
Defined.

(** The table of the notebook and the initial guess of its regression. *)
Lemma loss_nonnegative_zero_iff_fit_witness :
  let a := (1, ln (np_sum cases / np_sum populations))%R in
  (0 <= loss populations cases a)%R /\
  (loss populations cases a = 0%R <->
   Forall (fun cp => ln (fst cp) = fst a * ln (snd cp) + snd a)%R
     (combine cases populations)).
Proof.
  intros a.
  apply (@loss_nonnegative_zero_iff_fit populations cases a).
  - apply column0_positive. vm_compute. reflexivity.
  - apply column1_positive. vm_compute. reflexivity.
  - unfold populations, cases, column0, column1.
    rewrite !length_map. reflexivity.
  - unfold cases, column1, municipalities. simpl. discriminate.
Defined.

Lemma fixed_points_are_critical_points_witness :
  (value (gd Rgrad (parabola 3) 3%R (1 / 10)%R (995 / 1000)%R 1) = 3%R
   <-> Rgrad (parabola 3) 3%R = 0%R \/ (1 / 10)%R = 0%R) /\
  (value (newton Rgrad (parabola 3) 3%R 1) = 3%R
   <-> Rgrad (parabola 3) 3%R = 0%R).
Proof.
  destruct (@fixed_points_are_critical_points Rgrad (parabola 3) 3%R
              (1 / 10)%R (995 / 1000)%R) as [Hgd Hnewton].
  split; [exact Hgd | apply Hnewton].
  rewrite (exact_parabola_second (Rgrad_exact_parabola 3)
             (Rgrad_exact_parabola_second 3)).
  lra.
Defined.

(** The ends of the plotted interval, [1.1] and [2.9]. *)
Lemma first_foo_beyond_one_witness :
  (0 < ln (11 / 10) * exp (11 / 10) /\
   Evaluating.foo (11 / 10) = exp (- (11 / 10)) + / ln (11 / 10) /\
   0 < Evaluating.foo (29 / 10) /\
   Evaluating.foo (29 / 10) < Evaluating.foo (11 / 10))%R.
Proof.
  apply (@first_foo_beyond_one (11 / 10)%R (29 / 10)%R); lra.
Defined.

(** * Where floating point departs from the reals *)

(** C4 as first stated fails in binary32: with the exact derivative
    formulas of [(x - 0.1)**2], one iteration of [newton] from [10.0] does
    not return [0.1]. *)
Lemma newton_parabola_float_counterexample :
  (forall x, parabola_oracle32 tenth32 (parabola32 tenth32) x
             = SFmul 24 128 two32 (SFsub 24 128 x tenth32)) /\
  (forall x, parabola_oracle32 tenth32
               (parabola_oracle32 tenth32 (parabola32 tenth32)) x = two32) /\
  value (newton (N := binary32) (parabola_oracle32 tenth32)
                (parabola32 tenth32) ten32 1) <> tenth32.
Proof.
  assert (H1 : SFltb (parabola32 tenth32 (S754_zero false)) (S754_zero false)
               = false) by (vm_compute; reflexivity).
  assert (H2 : SFltb (parabola_oracle32 tenth32 (parabola32 tenth32)
                        (S754_zero false)) (S754_zero false) = true)
    by (vm_compute; reflexivity).
  split; [|split].
  - intros x. unfold parabola_oracle32. now rewrite H1.
  - intros x. unfold parabola_oracle32 at 1. now rewrite H2.
  - intros H. vm_compute in H. discriminate.
Qed.

(** C6 as first stated fails in binary32: with [step0 = decay = 2**-100]
    the step size after one iteration has underflowed to 0, which is not
    the product [step0 * decay]. *)
Lemma gd_step_decay_float_counterexample :
  to_real (snd (gd_locals (N := binary32) zero_oracle32 constant32
                  one32 tiny32 tiny32 1 1))
  <> (to_real tiny32 * to_real tiny32 ^ 1)%R.
Proof.
  assert (H : snd (gd_locals (N := binary32) zero_oracle32 constant32
                     one32 tiny32 tiny32 1 1) = S754_zero false)
    by (vm_compute; reflexivity).
  rewrite H. change (to_real (S754_zero false)) with 0%R.
  assert (Ha : (0 < to_real tiny32)%R).
  { unfold tiny32, to_real, cond_Zopp.
    apply Rmult_lt_0_compat; [apply IZR_lt; lia | apply powerRZ_lt; lra]. }
  rewrite pow_1. apply Rlt_not_eq. now apply Rmult_lt_0_compat.
Qed.

